(** * create_icon.py: the minimal 16x16 ICO writer of src-tauri

    The script builds a fixed byte image with [struct.pack] (an ICO header,
    one directory entry, a BITMAPINFOHEADER and 256 BGRA pixels), writes it
    to [src-tauri/icons/icon.ico] and prints a completion message.

    Python integers are modelled as [Z], [bytes] values as lists of
    [Byte.byte], exceptions as the [Raise] alternative of [result].  The body
    of [create_minimal_ico] is written once, over a monad that offers
    [struct.pack]; it is then run under three semantics: Python's own
    (results and exceptions), one that also records every call of
    [struct.pack], and one that threads the state of the process (file
    system and standard output). *)

From Stdlib Require Import ZArith Lia Ascii String.
From coqutil Require Import Byte Word.LittleEndianList.
From stdpp Require Import gmap strings list.

Open Scope Z_scope.

(** ** Values, exceptions, results *)

Abbreviation bytes := (list Byte.byte).

(** The exceptions the script can meet: [struct.error], and the subclasses of
    [OSError] raised by [open], [write] and [close]. *)
Inductive exn : Type :=
| StructError
| FileNotFoundError
| PermissionError
| IsADirectoryError
| NotADirectoryError
| OSError.

Inductive result (A : Type) : Type :=
| Ok (a : A)
| Raise (e : exn).
Arguments Ok {A} a.
Arguments Raise {A} e.

#[global] Instance result_ret : MRet result := fun A a => Ok a.
#[global] Instance result_bind : MBind result := fun A B k r =>
  match r with
  | Ok a => k a
  | Raise e => Raise e
  end.

Definition is_ok {A} (r : result A) : bool :=
  match r with Ok _ => true | Raise _ => false end.

(** ** [struct.pack] and [struct.unpack] for the formats the script uses

    A format is the byte-order character ['<'] (little-endian, standard sizes,
    no padding) followed by field codes; the script uses [B] (unsigned 8 bit),
    [H] (unsigned 16 bit) and [L] (unsigned 32 bit).  Any other format is
    rejected with [struct.error]. *)

Inductive code : Type := CodeB | CodeH | CodeL.

Definition code_size (c : code) : nat :=
  match c with CodeB => 1%nat | CodeH => 2%nat | CodeL => 4%nat end.

Definition code_bits (c : code) : Z := 8 * Z.of_nat (code_size c).

Definition code_of_ascii (a : Ascii.ascii) : option code :=
  if Ascii.eqb a "B"%char then Some CodeB
  else if Ascii.eqb a "H"%char then Some CodeH
  else if Ascii.eqb a "L"%char then Some CodeL
  else None.

Fixpoint parse_codes (s : string) : result (list code) :=
  match s with
  | EmptyString => Ok []
  | String a s' =>
      match code_of_ascii a with
      | Some c => cs ← parse_codes s'; mret (c :: cs)
      | None => Raise StructError
      end
  end.

Definition parse_format (fmt : string) : result (list code) :=
  match fmt with
  | String a s' => if Ascii.eqb a "<"%char then parse_codes s' else Raise StructError
  | EmptyString => Raise StructError
  end.

(** [struct.calcsize] *)
Definition calcsize (cs : list code) : nat :=
  foldr (fun c n => (code_size c + n)%nat) 0%nat cs.

(** An unsigned field of [code_bits c] bits takes the values
    [0 .. 2^bits - 1]; everything else makes [struct.pack] raise. *)
Definition in_range (c : code) (v : Z) : bool :=
  (0 <=? v) && (v <? 2 ^ code_bits c).

Fixpoint pack_fields (cs : list code) (vs : list Z) : result bytes :=
  match cs, vs with
  | [], [] => Ok []
  | c :: cs', v :: vs' =>
      if in_range c v
      then rest ← pack_fields cs' vs'; mret (le_split (code_size c) v ++ rest)
      else Raise StructError
  | _, _ => Raise StructError
  end.

Definition pack (fmt : string) (vs : list Z) : result bytes :=
  cs ← parse_format fmt; pack_fields cs vs.

Fixpoint unpack_fields (cs : list code) (bs : bytes) : result (list Z) :=
  match cs with
  | [] => match bs with [] => Ok [] | _ => Raise StructError end
  | c :: cs' =>
      if (length bs <? code_size c)%nat then Raise StructError
      else vs ← unpack_fields cs' (drop (code_size c) bs);
           mret (le_combine (take (code_size c) bs) :: vs)
  end.

Definition unpack (fmt : string) (bs : bytes) : result (list Z) :=
  cs ← parse_format fmt; unpack_fields cs bs.

(** The call sites of [struct.pack], as the instrumented run records them. *)
Definition pack_call : Type := string * list Z.

(** Does the call stay within the widths its format declares? *)
Definition call_fits (c : pack_call) : bool :=
  match parse_format c.1 with
  | Ok cs =>
      (length cs =? length c.2)%nat
      && forallb (fun cv => in_range cv.1 cv.2) (zip cs c.2)
  | Raise _ => false
  end.

(** ** The monads the script runs in *)

(** What the body of [create_minimal_ico] needs besides sequencing. *)
Class StructPack (M : Type → Type) := struct_pack : string → list Z → M bytes.

#[global] Instance result_pack : StructPack result := pack.

(** Python's [for x in xs: s = body(x, s)], the loop-carried variables
    gathered in [s]. *)
Fixpoint for_each {M} `{MRet M, MBind M} {A S}
    (xs : list A) (body : A → S → M S) (s : S) : M S :=
  match xs with
  | [] => mret s
  | x :: xs' => s' ← body x s; for_each xs' body s'
  end.

(** Python's [range(n)]: empty when [n <= 0]. *)
Definition range (n : Z) : list Z := Z.of_nat <$> seq 0 (Z.to_nat n).

(** Python's [b[lo:hi]] for [0 <= lo <= hi]. *)
Definition slice {A} (lo hi : nat) (l : list A) : list A :=
  take (hi - lo) (drop lo l).

(** ** The construction *)

Section construction.
Context {M : Type → Type} `{MRet M, MBind M, StructPack M}.

(** The nested loop that fills [pixel_data], 16x16 pixels of 4 bytes
    each, BGRA. *)
Definition pixel_loop (width height : Z) : M bytes :=
  for_each (range height) (fun y pixel_data =>
    for_each (range width) (fun x pixel_data =>
      px ← struct_pack "<BBBB" [255; 0; 0; 255];
      mret (pixel_data ++ px)) pixel_data) [].

Definition create_minimal_ico_body : M bytes :=
  ico_header ← struct_pack "<HHH" [0; 1; 1];
  let width := 16 in
  let height := 16 in
  let colors := 0 in
  let reserved := 0 in
  let planes := 1 in
  let bits_per_pixel := 32 in
  let size_in_bytes := 40 + (width * height * 4) in
  let offset := 22 in
  ico_dir_entry ← struct_pack "<BBBBHHLL"
                    [width; height; colors; reserved;
                     planes; bits_per_pixel; size_in_bytes; offset];
  dib_header ← struct_pack "<LLLHHLLLLLL"
                 [40; width; height * 2; 1; bits_per_pixel; 0;
                  width * height * 4; 0; 0; 0; 0];
  pixel_data ← pixel_loop width height;
  let ico_data := ico_header ++ ico_dir_entry ++ dib_header ++ pixel_data in
  mret ico_data.
End construction.

(** [create_minimal_ico()] as Python evaluates it. *)
Definition create_minimal_ico : result bytes := create_minimal_ico_body.

(** The bytes a successful call returns ([[]] stands for a raised
    exception; that the call does succeed is [create_minimal_ico_returns]). *)
Definition ico_bytes : bytes :=
  match create_minimal_ico with Ok b => b | Raise _ => [] end.

(** *** The instrumented run: every call of [struct.pack] is recorded *)

Definition traced (A : Type) : Type := list pack_call * result A.

#[global] Instance traced_ret : MRet traced := fun A a => ([], Ok a).
#[global] Instance traced_bind : MBind traced := fun A B k m =>
  match m with
  | (t, Ok a) => let (t', r) := k a in (t ++ t', r)
  | (t, Raise e) => (t, Raise e)
  end.
#[global] Instance traced_pack : StructPack traced :=
  fun fmt vs => ([(fmt, vs)], pack fmt vs).

Definition create_minimal_ico_traced : traced bytes := create_minimal_ico_body.

(** ** The process: file system and standard output

    The script touches the outside world through [open], [f.write], the
    [close] that leaving the [with] block performs, and [print].  The file
    system is kept abstract ([FileSystem]): each primitive maps a state of
    the file system to a new state and a result, and may fail with an
    exception.  [print] appends one line to standard output. *)

Class FileSystem (FS : Type) := {
  fd : Type;
  os_open_wb : string → FS → FS * result fd;
  os_write : fd → bytes → FS → FS * result nat;
  os_close : fd → FS → FS * result unit;
}.

Record process (FS : Type) := Process { fs : FS; stdout : list string }.
Arguments Process {FS} fs stdout.
Arguments fs {FS} p.
Arguments stdout {FS} p.

Definition Py (FS A : Type) : Type := process FS → process FS * result A.

#[global] Instance Py_ret {FS} : MRet (Py FS) := fun A a w => (w, Ok a).
#[global] Instance Py_bind {FS} : MBind (Py FS) := fun A B k m w =>
  match m w with
  | (w', Ok a) => k a w'
  | (w', Raise e) => (w', Raise e)
  end.
#[global] Instance Py_pack {FS} : StructPack (Py FS) :=
  fun fmt vs w => (w, pack fmt vs).

Section script.
Context {FS : Type} `{FileSystem FS}.

Definition on_fs {A} (op : FS → FS * result A) : Py FS A :=
  fun w => let r := op (fs w) in (Process r.1 (stdout w), r.2).

Definition open_wb (path : string) : Py FS fd := on_fs (os_open_wb path).
Definition write (f : fd) (data : bytes) : Py FS nat := on_fs (os_write f data).
Definition close (f : fd) : Py FS unit := on_fs (os_close f).

Definition print (line : string) : Py FS unit :=
  fun w => (Process (fs w) (stdout w ++ [line]), Ok tt).

(** [with open(path, 'wb') as f: body(f)].  Leaving the block closes the
    file, also when the body raised; the body's exception is then raised
    again, unless [close] raised one of its own. *)
Definition with_open_wb {A} (path : string) (body : fd → Py FS A) : Py FS A :=
  fun w =>
    match open_wb path w with
    | (w1, Raise e) => (w1, Raise e)
    | (w1, Ok f) =>
        match body f w1 with
        | (w2, Ok a) =>
            match close f w2 with
            | (w3, Ok _) => (w3, Ok a)
            | (w3, Raise e) => (w3, Raise e)
            end
        | (w2, Raise e) =>
            match close f w2 with
            | (w3, Ok _) => (w3, Raise e)
            | (w3, Raise e') => (w3, Raise e')
            end
        end
    end.

(** The [with] statement of the module body. *)
Definition write_ico_data (ico_data : bytes) : Py FS nat :=
  with_open_wb "src-tauri/icons/icon.ico" (fun f => write f ico_data).

(** The module body after the definition of [create_minimal_ico]. *)
Definition main : Py FS unit :=
  ico_data ← create_minimal_ico_body;
  _ ← write_ico_data ico_data;
  print "Created minimal ICO file".
End script.

(** *** A file system with inodes, permissions, buffering and bounded storage

    The concrete file system the examples run on.  A name denotes a
    directory, with the permissions of the process to search it and to add
    entries to it, or a hard link to an inode; an inode carries the
    permission of the process to write the file and its content, so that
    several names can share one file.  The storage accepts [free_space] more
    bytes.  Written bytes stay in the buffer of the open file while they fit
    [buffer_size]; they reach the inode when the buffer overflows or the file
    is closed, and this is where a full storage shows.  Symbolic links and
    special files are not represented. *)

Inductive entry : Type :=
| Folder (searchable writable : bool)
| HardLink (ino : nat).

Record inode := Inode { may_write : bool; content : bytes }.

Record disk := Disk {
  names : gmap string entry;
  inodes : gmap nat inode;
  free_space : nat;
  buffer_size : nat;
  new_files_writable : bool;
  open_files : gmap nat (nat * bytes);
}.

(** The path up to its last ['/'] and the name after it. *)
Fixpoint split_last_slash (p : string) : option (string * string) :=
  match p with
  | EmptyString => None
  | String a p' =>
      match split_last_slash p' with
      | Some (d, n) => Some (String a d, n)
      | None => if Ascii.eqb a "/"%char then Some (EmptyString, p') else None
      end
  end.

(** Parent directory and entry name; a bare name lives in the current
    directory ["."], [/name] in the root. *)
Definition split_path (p : string) : string * string :=
  match split_last_slash p with
  | Some (EmptyString, n) => ("/"%string, n)
  | Some (d, n) => (d, n)
  | None => ("."%string, p)
  end.

(** A descriptor for inode [i], its buffer empty. *)
Definition new_descriptor (i : nat) (t : disk) : disk * result nat :=
  let f := fresh (dom (open_files t)) in
  (Disk (names t) (inodes t) (free_space t) (buffer_size t)
     (new_files_writable t) (<[f := (i, [])]> (open_files t)), Ok f).

(** [open(path, 'wb')]: the parent directory must be there
    ([FileNotFoundError]), be a directory ([NotADirectoryError]) and be
    searchable ([PermissionError]).  A directory under the name raises
    [IsADirectoryError]; an existing file must be writable
    ([PermissionError]) and is emptied, whatever the directory allows; a
    missing file is created, which the directory must allow
    ([PermissionError]), with the write permission the umask leaves. *)
Definition posix_open_wb (path : string) (t : disk) : disk * result nat :=
  match names t !! (split_path path).1 with
  | None => (t, Raise FileNotFoundError)
  | Some (HardLink _) => (t, Raise NotADirectoryError)
  | Some (Folder x w) =>
      if negb x then (t, Raise PermissionError) else
      match names t !! path with
      | Some (Folder _ _) => (t, Raise IsADirectoryError)
      | Some (HardLink i) =>
          match inodes t !! i with
          | None => (t, Raise OSError)
          | Some node =>
              if may_write node
              then new_descriptor i
                     (Disk (names t) (<[i := Inode true []]> (inodes t))
                        (free_space t + length (content node)) (buffer_size t)
                        (new_files_writable t) (open_files t))
              else (t, Raise PermissionError)
          end
      | None =>
          if w
          then let i := fresh (dom (inodes t)) in
               new_descriptor i
                 (Disk (<[path := HardLink i]> (names t))
                    (<[i := Inode (new_files_writable t) []]> (inodes t))
                    (free_space t) (buffer_size t)
                    (new_files_writable t) (open_files t))
          else (t, Raise PermissionError)
      end
  end.

(** Move [pending] from the buffer to inode [i].  When the storage cannot
    take all of it, what fits is stored and [OSError] is raised. *)
Definition flush (i : nat) (pending : bytes) (t : disk) : disk * result unit :=
  match inodes t !! i with
  | None => (t, Raise OSError)
  | Some node =>
      if (length pending <=? free_space t)%nat
      then (Disk (names t)
              (<[i := Inode (may_write node) (content node ++ pending)]> (inodes t))
              (free_space t - length pending) (buffer_size t)
              (new_files_writable t) (open_files t), Ok tt)
      else (Disk (names t)
              (<[i := Inode (may_write node)
                        (content node ++ take (free_space t) pending)]> (inodes t))
              0 (buffer_size t) (new_files_writable t) (open_files t),
            Raise OSError)
  end.

Definition set_buffer (f i : nat) (pending : bytes) (t : disk) : disk :=
  Disk (names t) (inodes t) (free_space t) (buffer_size t)
    (new_files_writable t) (<[f := (i, pending)]> (open_files t)).

(** [f.write(data)]: buffered when it fits, flushed at once otherwise. *)
Definition posix_write (f : nat) (data : bytes) (t : disk) : disk * result nat :=
  match open_files t !! f with
  | None => (t, Raise OSError)
  | Some (i, pending) =>
      if (length (pending ++ data) <=? buffer_size t)%nat
      then (set_buffer f i (pending ++ data) t, Ok (length data))
      else match flush i (pending ++ data) (set_buffer f i [] t) with
           | (t', Ok _) => (t', Ok (length data))
           | (t', Raise e) => (t', Raise e)
           end
  end.

(** [f.close()]: the descriptor is released and the buffer flushed. *)
Definition posix_close (f : nat) (t : disk) : disk * result unit :=
  match open_files t !! f with
  | None => (t, Raise OSError)
  | Some (i, pending) =>
      flush i pending
        (Disk (names t) (inodes t) (free_space t) (buffer_size t)
           (new_files_writable t) (delete f (open_files t)))
  end.

#[global] Instance posix_fs : FileSystem disk := {
  fd := nat;
  os_open_wb := posix_open_wb;
  os_write := posix_write;
  os_close := posix_close;
}.

(** *** What a file system lets one observe, and what [open] promises

    Whatever the file system is, two questions can be put to a state: what
    a path holds, and whether the parent directory of a path is there. *)

Class Observable (FS : Type) := {
  file_content : FS → string → option bytes;
  parent_exists : FS → string → bool;
}.

#[global] Instance posix_observable : Observable disk := {
  file_content := fun t path =>
    match names t !! path with
    | Some (HardLink i) => content <$> inodes t !! i
    | _ => None
    end;
  parent_exists := fun t path =>
    match names t !! (split_path path).1 with
    | Some _ => true
    | None => false
    end;
}.



(** ** What the specification compares the construction with *)

(** One BGRA sample: blue 255, green 0, red 0, alpha 255. *)
Definition blue_pixel : bytes := [Byte.xff; Byte.x00; Byte.x00; Byte.xff].

(** The loop-free pixel block: the sample repeated [n] times. *)
Definition pixel_block_spec (n : nat) : bytes := concat (replicate n blue_pixel).

(** What it means for one recorded call to be safe: its format is
    understood, each value lies within the width of its field, the call
    returns, and unpacking what it returned gives the values back. *)
Definition call_in_bounds (c : pack_call) : Prop :=
  (∃ cs, parse_format c.1 = Ok cs
         ∧ Forall2 (fun k v => 0 ≤ v < 2 ^ (8 * Z.of_nat (code_size k))) cs c.2)
  ∧ ∃ b, pack c.1 c.2 = Ok b ∧ unpack c.1 b = Ok c.2.

(** [c] leaves the state of the process alone and returns [r] from every
    state. *)
Definition stateless {FS A} (c : Py FS A) (r : result A) : Prop :=
  ∀ w, c w = (w, r).

(** *** States of the file system used as examples *)

Definition icons_path : string := "src-tauri/icons".
Definition icon_path : string := "src-tauri/icons/icon.ico".

(** The icons directory holding one icon, with the given permissions on the
    directory and on the file, and [room] bytes of free storage. *)
Definition tree_with_icon (dir_writable file_writable : bool) (room : nat) : disk :=
  Disk {[ icons_path := Folder true dir_writable; icon_path := HardLink 7%nat ]}
       {[ 7%nat := Inode file_writable [Byte.x00; Byte.x2a] ]}
       room 4096 true ∅.

(** A project tree whose icons directory already holds a stale icon. *)
Definition stale_tree : disk := tree_with_icon true true 4000.

(** A tree where the icons directory exists but may not be written, and
    holds no icon. *)
Definition locked_tree : disk :=
  Disk {[ icons_path := Folder true false ]} ∅ 4000 4096 true ∅.


(** A writable icons directory in which [icon.ico] is a directory. *)
Definition folder_icon_tree : disk :=
  Disk {[ icons_path := Folder true true; icon_path := Folder true true ]}
       ∅ 4000 4096 true ∅.

(** A writable icons directory on a storage with room for 100 bytes. *)
Definition full_tree : disk :=
  Disk {[ icons_path := Folder true true ]} ∅ 100 4096 true ∅.

(** A read-only icons directory holding a writable icon. *)
Definition locked_dir_writable_icon_tree : disk := tree_with_icon false true 4000.


(** The stale icon under a second name, [backup.ico], of the same inode. *)
Definition linked_tree : disk :=
  Disk {[ icons_path := Folder true true; icon_path := HardLink 7%nat;
          "src-tauri/icons/backup.ico"%string := HardLink 7%nat ]}
       {[ 7%nat := Inode true [Byte.x00; Byte.x2a] ]}
       4000 4096 true ∅.

(** *** The construction with its two dimensions as parameters

    The body of [create_minimal_ico] again, the locals [width] and [height]
    taken as parameters instead of being assigned 16; every other line is
    the source's.  [create_minimal_ico_body] is its instance at 16 and 16
    ([create_minimal_ico_body_sized]). *)

Section sized_construction.
Context {M : Type → Type} `{MRet M, MBind M, StructPack M}.

Definition create_ico_of_size (width height : Z) : M bytes :=
  ico_header ← struct_pack "<HHH" [0; 1; 1];
  let colors := 0 in
  let reserved := 0 in
  let planes := 1 in
  let bits_per_pixel := 32 in
  let size_in_bytes := 40 + (width * height * 4) in
  let offset := 22 in
  ico_dir_entry ← struct_pack "<BBBBHHLL"
                    [width; height; colors; reserved;
                     planes; bits_per_pixel; size_in_bytes; offset];
  dib_header ← struct_pack "<LLLHHLLLLLL"
                 [40; width; height * 2; 1; bits_per_pixel; 0;
                  width * height * 4; 0; 0; 0; 0];
  pixel_data ← pixel_loop width height;
  let ico_data := ico_header ++ ico_dir_entry ++ dib_header ++ pixel_data in
  mret ico_data.
End sized_construction.

(** *** A file system that records what is asked of it

    Its state is the list of the calls made so far; what [open], [write] and
    [close] answer is fixed beforehand by [ro], [rw] and [rc]. *)

Inductive os_call : Type :=
| CallOpenWb (path : string)
| CallWrite (data : bytes)
| CallClose.

Definition scripted_fs (ro : result unit) (rw : result nat) (rc : result unit)
    : FileSystem (list os_call) := {|
  fd := unit;
  os_open_wb := fun path log => (log ++ [CallOpenWb path], ro);
  os_write := fun _ data log => (log ++ [CallWrite data], rw);
  os_close := fun _ log => (log ++ [CallClose], rc);
|}.

(** ** [struct.pack]: sizes, success, round trip *)

Lemma result_bind_ok {A B} (k : A → result B) (a : A) : Ok a ≫= k = k a.
Proof. reflexivity. Qed.

Lemma in_range_spec (c : code) (v : Z) :
  in_range c v = true ↔ 0 ≤ v < 2 ^ (8 * Z.of_nat (code_size c)).
Proof.
  unfold in_range, code_bits.
  rewrite andb_true_iff, Z.leb_le, Z.ltb_lt. tauto.
Qed.

Lemma in_range_widths (v : Z) :
  (in_range CodeB v = true ↔ 0 ≤ v < 2 ^ 8)
  ∧ (in_range CodeH v = true ↔ 0 ≤ v < 2 ^ 16)
  ∧ (in_range CodeL v = true ↔ 0 ≤ v < 2 ^ 32).
Proof. split; [|split]; apply in_range_spec. Qed.

Lemma pack_fields_length (cs : list code) (vs : list Z) (b : bytes) :
  pack_fields cs vs = Ok b → length b = calcsize cs.
Proof.
  revert vs b. induction cs as [|c cs IH]; intros [|v vs] b; simpl; try discriminate.
  - intros [= <-]. reflexivity.
  - destruct (in_range c v); [|discriminate].
    destruct (pack_fields cs vs) as [rest|e] eqn:Hrest; simpl; [|discriminate].
    intros [= <-]. rewrite length_app, length_le_split, (IH vs rest Hrest). reflexivity.
Qed.

(** [struct.pack] raises exactly when the number of values differs from the
    number of fields or a value leaves the range of its field. *)
Lemma pack_fields_ok_iff (cs : list code) (vs : list Z) :
  is_ok (pack_fields cs vs) = true
  ↔ Forall2 (fun c v => in_range c v = true) cs vs.
Proof.
  revert vs. induction cs as [|c cs IH]; intros [|v vs]; simpl.
  - split; [constructor | reflexivity].
  - split; [discriminate | inversion 1].
  - split; [discriminate | inversion 1].
  - destruct (in_range c v) eqn:Hc; simpl.
    + specialize (IH vs). destruct (pack_fields cs vs); simpl in *.
      * split; [intros _; constructor; [exact Hc | apply IH; reflexivity] | reflexivity].
      * split; [discriminate | inversion 1; subst; apply IH; assumption].
    + split; [discriminate | inversion 1; congruence].
Qed.

Lemma call_fits_ok (c : pack_call) :
  call_fits c = true ↔ is_ok (pack c.1 c.2) = true.
Proof.
  unfold call_fits, pack. destruct (parse_format c.1) as [cs|e]; simpl; [|tauto].
  rewrite pack_fields_ok_iff, andb_true_iff, Nat.eqb_eq.
  generalize (c.2). clear c. induction cs as [|k cs IH]; intros [|v vs]; simpl.
  - split; [constructor | auto].
  - split; [intros [? _]; discriminate | inversion 1].
  - split; [intros [? _]; discriminate | inversion 1].
  - rewrite andb_true_iff. split.
    + intros [[= Hlen] [Hk Hrest]]. constructor; [exact Hk | apply IH; auto].
    + inversion 1; subst. destruct (proj2 (IH vs)) as [-> ->]; auto.
Qed.

(** What [struct.pack] wrote, [struct.unpack] reads back: no value was
    truncated. *)
Lemma unpack_pack_fields (cs : list code) (vs : list Z) (b : bytes) :
  pack_fields cs vs = Ok b → unpack_fields cs b = Ok vs.
Proof.
  revert vs b. induction cs as [|c cs IH]; intros [|v vs] b; simpl; try discriminate.
  - intros [= <-]. reflexivity.
  - destruct (in_range c v) eqn:Hc; [|discriminate].
    destruct (pack_fields cs vs) as [rest|e] eqn:Hrest; simpl; [|discriminate].
    intros [= <-].
    assert (Hlen : length (le_split (code_size c) v) = code_size c)
      by apply length_le_split.
    rewrite length_app, Hlen.
    destruct (Nat.ltb_spec (code_size c + length rest) (code_size c)) as [?|_]; [lia|].
    rewrite drop_app_length' by (symmetry; exact Hlen).
    rewrite take_app_length' by (symmetry; exact Hlen).
    rewrite (IH vs rest Hrest). simpl.
    rewrite le_combine_split, Z.mod_small; [reflexivity|].
    apply in_range_spec in Hc. rewrite Z.mul_comm. exact Hc.
Qed.

Lemma unpack_pack (fmt : string) (vs : list Z) (b : bytes) :
  pack fmt vs = Ok b → unpack fmt b = Ok vs.
Proof.
  unfold pack, unpack. destruct (parse_format fmt) as [cs|e]; simpl; [|discriminate].
  apply unpack_pack_fields.
Qed.

(** [struct.pack] at the edges of a field, and with too few values. *)
Example pack_byte_edges :
  pack "<B" [255] = Ok [Byte.xff]
  ∧ pack "<B" [256] = Raise StructError
  ∧ pack "<H" [-1] = Raise StructError
  ∧ pack "<L" [4294967295] = Ok [Byte.xff; Byte.xff; Byte.xff; Byte.xff]
  ∧ pack "<HHH" [0; 1] = Raise StructError
  ∧ pack "HHH" [0; 1; 1] = Raise StructError.
Proof. repeat split; reflexivity. Qed.

(** ** Loops that append one fixed chunk per iteration *)

Lemma range_length (n : Z) : length (range n) = Z.to_nat n.
Proof. unfold range. rewrite length_fmap, length_seq. reflexivity. Qed.

Lemma concat_replicate_add {A} (n m : nat) (chunk : list A) :
  concat (replicate (n + m) chunk)
  = concat (replicate n chunk) ++ concat (replicate m chunk).
Proof. rewrite replicate_add, concat_app. reflexivity. Qed.

Lemma concat_replicate_mul {A} (n m : nat) (chunk : list A) :
  concat (replicate n (concat (replicate m chunk)))
  = concat (replicate (n * m) chunk).
Proof.
  induction n as [|n IH]; simpl; [reflexivity|].
  rewrite IH, concat_replicate_add. reflexivity.
Qed.

(** A loop whose body appends [chunk] to the accumulator, whatever the loop
    variable is, appends [chunk] once per element of the iterated list. *)
Lemma for_each_append {A B} (xs : list A) (chunk : list B)
    (body : A → list B → result (list B)) :
  (∀ x acc, body x acc = Ok (acc ++ chunk)) →
  ∀ acc, for_each xs body acc = Ok (acc ++ concat (replicate (length xs) chunk)).
Proof.
  intros Hbody. induction xs as [|x xs IH]; intros acc; simpl.
  - rewrite app_nil_r. reflexivity.
  - rewrite Hbody, result_bind_ok, IH, <- app_assoc. reflexivity.
Qed.

Lemma pack_blue_pixel : pack "<BBBB" [255; 0; 0; 255] = Ok blue_pixel.
Proof. reflexivity. Qed.

(** The nested loop for any width and height: the sample once per pixel. *)
Lemma pixel_loop_any_size (width height : Z) :
  pixel_loop (M := result) width height
  = Ok (pixel_block_spec (Z.to_nat height * Z.to_nat width)).
Proof.
  unfold pixel_loop, pixel_block_spec.
  rewrite (for_each_append (range height)
             (concat (replicate (Z.to_nat width) blue_pixel))).
  - rewrite range_length, concat_replicate_mul. reflexivity.
  - intros y acc.
    rewrite (for_each_append (range width) blue_pixel).
    + rewrite range_length. reflexivity.
    + intros x acc'. unfold struct_pack, result_pack.
      rewrite pack_blue_pixel. reflexivity.
Qed.

(** ** The returned bytes *)

Lemma create_minimal_ico_returns : create_minimal_ico = Ok ico_bytes.
Proof. reflexivity. Qed.

(** The four parts of the result, each the output of its [struct.pack]
    calls. *)
Lemma create_minimal_ico_parts :
  ∃ ico_header ico_dir_entry dib_header : bytes,
    pack "<HHH" [0; 1; 1] = Ok ico_header
    ∧ pack "<BBBBHHLL" [16; 16; 0; 0; 1; 32; 1064; 22] = Ok ico_dir_entry
    ∧ pack "<LLLHHLLLLLL" [40; 16; 32; 1; 32; 0; 1024; 0; 0; 0; 0] = Ok dib_header
    ∧ create_minimal_ico
      = Ok (ico_header ++ ico_dir_entry ++ dib_header ++ pixel_block_spec 256).
Proof.
  unfold create_minimal_ico, create_minimal_ico_body.
  rewrite pixel_loop_any_size. unfold struct_pack, result_pack.
  change (40 + 16 * 16 * 4) with 1064. change (16 * 2) with 32.
  change (16 * 16 * 4) with 1024.
  destruct (pack "<HHH" [0; 1; 1]) as [h|] eqn:Hh; [|discriminate].
  destruct (pack "<BBBBHHLL" [16; 16; 0; 0; 1; 32; 1064; 22]) as [d|] eqn:Hd;
    [|discriminate].
  destruct (pack "<LLLHHLLLLLL" [40; 16; 32; 1; 32; 0; 1024; 0; 0; 0; 0])
    as [b|] eqn:Hb; [|discriminate].
  exists h, d, b. repeat split; reflexivity.
Qed.

Lemma pack_length (fmt : string) (cs : list code) (vs : list Z) (b : bytes) :
  parse_format fmt = Ok cs → pack fmt vs = Ok b → length b = calcsize cs.
Proof.
  unfold pack. intros ->. rewrite result_bind_ok. apply pack_fields_length.
Qed.

Lemma pixel_block_spec_length (n : nat) :
  length (pixel_block_spec n) = (4 * n)%nat.
Proof.
  unfold pixel_block_spec. induction n as [|n IH]; simpl; [reflexivity|].
  simpl in IH. rewrite IH. lia.
Qed.

(** C1: the byte sequence [create_minimal_ico] returns has length exactly
    1086 = 6 + 16 + 40 + 1024. *)
Theorem create_minimal_ico_length :
  ∃ ico_data : bytes,
    create_minimal_ico = Ok ico_data
    ∧ length ico_data = (6 + 16 + 40 + 1024)%nat
    ∧ length ico_data = 1086%nat.
Proof.
  destruct create_minimal_ico_parts as (h & d & b & Hh & Hd & Hb & Hico).
  eexists. split; [exact Hico|].
  rewrite !length_app, pixel_block_spec_length.
  rewrite (pack_length "<HHH" [CodeH; CodeH; CodeH] _ _ eq_refl Hh).
  rewrite (pack_length "<BBBBHHLL" [CodeB; CodeB; CodeB; CodeB; CodeH; CodeH; CodeL; CodeL]
             _ _ eq_refl Hd).
  rewrite (pack_length "<LLLHHLLLLLL" [CodeL; CodeL; CodeL; CodeH; CodeH; CodeL; CodeL; CodeL;
                          CodeL; CodeL; CodeL] _ _ eq_refl Hb).
  split; reflexivity.
Qed.

(** ** Slices of a concatenation *)

Lemma slice_app_middle {A} (lo hi : nat) (l1 l2 l3 : list A) :
  length l1 = lo → (lo + length l2)%nat = hi → slice lo hi (l1 ++ l2 ++ l3) = l2.
Proof.
  intros Hlo Hhi. unfold slice.
  rewrite drop_app_length' by (symmetry; exact Hlo).
  apply take_app_length'. lia.
Qed.

Lemma slice_app_suffix {A} (lo hi : nat) (l1 l2 : list A) :
  length l1 = lo → (lo + length l2)%nat = hi → slice lo hi (l1 ++ l2) = l2.
Proof.
  intros Hlo Hhi. rewrite <- (app_nil_r l2) at 1.
  apply slice_app_middle; assumption.
Qed.

Lemma reshape_concat_replicate {A} (n : nat) (chunk : list A) :
  reshape (replicate n (length chunk)) (concat (replicate n chunk))
  = replicate n chunk.
Proof.
  induction n as [|n IH]; simpl; [reflexivity|].
  rewrite take_app_length, drop_app_length, IH. reflexivity.
Qed.

(** The lengths of the three packed records. *)
Lemma parts_lengths (h d b : bytes) :
  pack "<HHH" [0; 1; 1] = Ok h →
  pack "<BBBBHHLL" [16; 16; 0; 0; 1; 32; 1064; 22] = Ok d →
  pack "<LLLHHLLLLLL" [40; 16; 32; 1; 32; 0; 1024; 0; 0; 0; 0] = Ok b →
  length h = 6%nat ∧ length d = 16%nat ∧ length b = 40%nat.
Proof.
  intros Hh Hd Hb. repeat split.
  - exact (pack_length "<HHH" [CodeH; CodeH; CodeH] _ _ eq_refl Hh).
  - exact (pack_length "<BBBBHHLL"
             [CodeB; CodeB; CodeB; CodeB; CodeH; CodeH; CodeL; CodeL] _ _ eq_refl Hd).
  - exact (pack_length "<LLLHHLLLLLL"
             [CodeL; CodeL; CodeL; CodeH; CodeH; CodeL; CodeL; CodeL;
              CodeL; CodeL; CodeL] _ _ eq_refl Hb).
Qed.

(** C2: bytes 6..22 of the result decode, as [<BBBBHHLL], to
    (16, 16, 0, 0, 1, 32, 1064, 22); the size field is 40 + 1024, the number
    of bytes that follow the directory entry, and the offset field is
    6 + 16, where those bytes start. *)
Theorem directory_entry_decodes :
  ∃ ico_data : bytes,
    create_minimal_ico = Ok ico_data
    ∧ unpack "<BBBBHHLL" (slice 6 22 ico_data)
      = Ok [16; 16; 0; 0; 1; 32; 1064; 22]
    ∧ 1064 = 40 + 1024
    ∧ 1064 = Z.of_nat (length (drop 22 ico_data))
    ∧ 22 = 6 + 16
    ∧ 22 = Z.of_nat (length (take 6 ico_data) + length (slice 6 22 ico_data)).
Proof.
  destruct create_minimal_ico_parts as (h & d & b & Hh & Hd & Hb & Hico).
  destruct (parts_lengths h d b Hh Hd Hb) as (Lh & Ld & Lb).
  exists (h ++ d ++ b ++ pixel_block_spec 256). split; [exact Hico|].
  assert (Hslice : slice 6 22 (h ++ d ++ b ++ pixel_block_spec 256) = d)
    by (apply slice_app_middle; lia).
  rewrite Hslice, (unpack_pack _ _ _ Hd).
  rewrite (take_app_length' h _ 6) by lia.
  rewrite app_assoc, drop_app_length' by (rewrite length_app; lia).
  rewrite length_app, pixel_block_spec_length, Lh, Ld, Lb.
  repeat split; reflexivity.
Qed.

(** C3: bytes 22..62 of the result decode, as [<LLLHHLLLLLL], to
    (40, 16, 32, 1, 32, 0, 1024, 0, 0, 0, 0); the height field is twice the
    height the directory entry records. *)
Theorem bitmap_header_decodes :
  ∃ (ico_data : bytes) (dir_entry dib : list Z),
    create_minimal_ico = Ok ico_data
    ∧ unpack "<BBBBHHLL" (slice 6 22 ico_data) = Ok dir_entry
    ∧ unpack "<LLLHHLLLLLL" (slice 22 62 ico_data) = Ok dib
    ∧ dib = [40; 16; 32; 1; 32; 0; 1024; 0; 0; 0; 0]
    ∧ dir_entry !! 1%nat = Some 16
    ∧ dib !! 2%nat = Some (2 * 16).
Proof.
  destruct create_minimal_ico_parts as (h & d & b & Hh & Hd & Hb & Hico).
  destruct (parts_lengths h d b Hh Hd Hb) as (Lh & Ld & Lb).
  exists (h ++ d ++ b ++ pixel_block_spec 256). do 2 eexists.
  split; [exact Hico|].
  assert (Hdir : slice 6 22 (h ++ d ++ b ++ pixel_block_spec 256) = d)
    by (apply slice_app_middle; lia).
  assert (Hdib : slice 22 62 (h ++ d ++ b ++ pixel_block_spec 256) = b).
  { rewrite (app_assoc h d). apply slice_app_middle; rewrite ?length_app; lia. }
  rewrite Hdir, Hdib.
  split; [exact (unpack_pack _ _ _ Hd)|].
  split; [exact (unpack_pack _ _ _ Hb)|].
  repeat split; reflexivity.
Qed.

(** C4: bytes 62..1086 of the result are exactly 256 groups of 4 bytes, each
    equal to (0xFF, 0x00, 0x00, 0xFF). *)
Theorem pixel_block_groups :
  ∃ ico_data : bytes,
    create_minimal_ico = Ok ico_data
    ∧ length (slice 62 1086 ico_data) = (256 * 4)%nat
    ∧ reshape (replicate 256 4%nat) (slice 62 1086 ico_data)
      = replicate 256 [Byte.xff; Byte.x00; Byte.x00; Byte.xff]
    ∧ drop 1086 ico_data = [].
Proof.
  destruct create_minimal_ico_parts as (h & d & b & Hh & Hd & Hb & Hico).
  destruct (parts_lengths h d b Hh Hd Hb) as (Lh & Ld & Lb).
  exists (h ++ d ++ b ++ pixel_block_spec 256). split; [exact Hico|].
  assert (Hpx : slice 62 1086 (h ++ d ++ b ++ pixel_block_spec 256)
                = pixel_block_spec 256).
  { rewrite !app_assoc.
    apply slice_app_suffix;
      rewrite ?length_app, ?pixel_block_spec_length; lia. }
  rewrite Hpx, pixel_block_spec_length.
  split; [reflexivity|]. split.
  - exact (reshape_concat_replicate 256 blue_pixel).
  - apply drop_ge. rewrite !length_app, pixel_block_spec_length. lia.
Qed.

(** C5: bytes 0..6 of the result are [0,0,1,0,1,0]: the 16-bit little-endian
    fields reserved = 0, type = 1, count = 1. *)
Theorem file_header_bytes :
  ∃ ico_data : bytes,
    create_minimal_ico = Ok ico_data
    ∧ slice 0 6 ico_data
      = [Byte.x00; Byte.x00; Byte.x01; Byte.x00; Byte.x01; Byte.x00]
    ∧ unpack "<HHH" (slice 0 6 ico_data) = Ok [0; 1; 1].
Proof.
  exists ico_bytes. split; [exact create_minimal_ico_returns|].
  split; vm_compute; reflexivity.
Qed.

(** C8: the nested row/column loop builds the loop-free repetition of the
    4-byte sample: 256 times for width = height = 16, and once per pixel for
    any width and height, since the body ignores both loop variables. *)
Theorem pixel_loop_is_repetition :
  pixel_loop (M := result) 16 16
  = Ok (concat (replicate 256 [Byte.xff; Byte.x00; Byte.x00; Byte.xff]))
  ∧ ∀ width height : Z,
      pixel_loop (M := result) width height
      = Ok (pixel_block_spec (Z.to_nat height * Z.to_nat width)).
Proof.
  split.
  - exact (pixel_loop_any_size 16 16).
  - exact pixel_loop_any_size.
Qed.

(** ** The recorded calls of [struct.pack] *)

Lemma call_fits_spec (c : pack_call) :
  call_fits c = true
  ↔ ∃ cs, parse_format c.1 = Ok cs
          ∧ Forall2 (fun k v => in_range k v = true) cs c.2.
Proof.
  rewrite call_fits_ok. unfold pack.
  destruct (parse_format c.1) as [cs|e]; simpl.
  - rewrite pack_fields_ok_iff. split; [eauto|].
    intros (cs' & [= <-] & Hcs). exact Hcs.
  - split; [discriminate | intros (? & [=] & _)].
Qed.

Lemma call_fits_in_bounds (c : pack_call) : call_fits c = true → call_in_bounds c.
Proof.
  intros Hfit. split.
  - apply call_fits_spec in Hfit as (cs & Hcs & Hall). exists cs. split; [exact Hcs|].
    eapply Forall2_impl; [exact Hall|]. intros k v. apply in_range_spec.
  - apply call_fits_ok in Hfit.
    destruct (pack c.1 c.2) as [b|e] eqn:Hb; [|discriminate].
    exists b. split; [reflexivity | exact (unpack_pack _ _ _ Hb)].
Qed.

(** C9: every value handed to [struct.pack] during the construction fits
    the width of its field (8-bit values below 2^8, 16-bit below 2^16, 32-bit
    below 2^32), so no call raises or truncates and the construction
    returns. *)
Theorem pack_calls_in_bounds :
  Forall call_in_bounds create_minimal_ico_traced.1
  ∧ length create_minimal_ico_traced.1 = (3 + 16 * 16)%nat
  ∧ create_minimal_ico_traced.2 = create_minimal_ico
  ∧ is_ok create_minimal_ico = true.
Proof.
  split; [|repeat split; vm_compute; reflexivity].
  assert (Hall : forallb call_fits create_minimal_ico_traced.1 = true)
    by (vm_compute; reflexivity).
  apply Forall_forall. intros c Hc. apply call_fits_in_bounds.
  rewrite forallb_forall in Hall. apply Hall, list_elem_of_In, Hc.
Qed.

(** ** Running the construction inside the process *)

Section purity.
Context {FS : Type}.

Lemma stateless_ret {A} (a : A) : stateless (FS := FS) (mret a) (mret a).
Proof. intros w. reflexivity. Qed.

Lemma stateless_bind {A B} (m : Py FS A) (rm : result A)
    (k : A → Py FS B) (rk : A → result B) :
  stateless m rm → (∀ a, stateless (k a) (rk a)) →
  stateless (m ≫= k) (rm ≫= rk).
Proof.
  intros Hm Hk w. unfold mbind, Py_bind. rewrite Hm.
  destruct rm as [a|e]; [apply Hk | reflexivity].
Qed.

Lemma stateless_pack (fmt : string) (vs : list Z) :
  stateless (FS := FS) (struct_pack fmt vs) (struct_pack fmt vs).
Proof. intros w. reflexivity. Qed.

Lemma stateless_for_each {A S} (xs : list A)
    (body : A → S → Py FS S) (rbody : A → S → result S) :
  (∀ x s, stateless (body x s) (rbody x s)) →
  ∀ s, stateless (for_each xs body s) (for_each xs rbody s).
Proof.
  intros Hbody. induction xs as [|x xs IH]; intros s; simpl.
  - apply stateless_ret.
  - apply stateless_bind; [apply Hbody | exact IH].
Qed.

Lemma stateless_pixel_loop (width height : Z) :
  stateless (FS := FS) (pixel_loop width height) (pixel_loop width height).
Proof.
  unfold pixel_loop. apply stateless_for_each. intros y s.
  apply stateless_for_each. intros x s'.
  apply stateless_bind; [apply stateless_pack | intros px; apply stateless_ret].
Qed.

Lemma stateless_create_minimal_ico :
  stateless (FS := FS) create_minimal_ico_body create_minimal_ico.
Proof.
  unfold create_minimal_ico, create_minimal_ico_body. cbv zeta.
  apply stateless_bind; [apply stateless_pack | intros ico_header].
  apply stateless_bind; [apply stateless_pack | intros ico_dir_entry].
  apply stateless_bind; [apply stateless_pack | intros dib_header].
  apply stateless_bind; [apply stateless_pixel_loop | intros pixel_data].
  apply stateless_ret.
Qed.
End purity.

(** ** The module body on any file system *)

Lemma Py_bind_run {FS A B} (m : Py FS A) (k : A → Py FS B) (w : process FS) :
  (m ≫= k) w
  = match m w with
    | (w', Ok a) => k a w'
    | (w', Raise e) => (w', Raise e)
    end.
Proof. reflexivity. Qed.

Lemma snoc_neq_self {A} (l : list A) (x : A) : l ++ [x] ≠ l.
Proof.
  intros Heq. apply (f_equal length) in Heq.
  rewrite length_app in Heq. simpl in Heq. lia.
Qed.

Section script_facts.
Context {FS : Type} `{FileSystem FS}.

(** Opening, writing and closing never touch standard output. *)
Lemma write_ico_data_stdout (ico_data : bytes) (w : process FS) :
  stdout (write_ico_data ico_data w).1 = stdout w.
Proof.
  unfold write_ico_data, with_open_wb, open_wb, write, close, on_fs. simpl.
  destruct (os_open_wb _ (fs w)) as [t1 [f|e]]; simpl; [|reflexivity].
  destruct (os_write f ico_data t1) as [t2 [n|e]]; simpl;
    destruct (os_close f t2) as [t3 [[]|e']]; reflexivity.
Qed.

(** The module body: build the bytes, try to write them, and print only
    when the [with] statement completed. *)
Lemma main_run (w : process FS) :
  main w
  = match write_ico_data ico_bytes w with
    | (w', Ok _) => print "Created minimal ICO file" w'
    | (w', Raise e) => (w', Raise e)
    end.
Proof.
  unfold main.
  rewrite Py_bind_run, stateless_create_minimal_ico, create_minimal_ico_returns.
  rewrite Py_bind_run. reflexivity.
Qed.
End script_facts.

(** C10: on any file system, the line [Created minimal ICO file] reaches
    standard output exactly when the [with open(...)] statement completes;
    when it raises, the exception ends the script with standard output as it
    was. *)
Theorem message_iff_write_succeeds {FS : Type} `{FileSystem FS} (w : process FS) :
  let attempt := write_ico_data ico_bytes w in
  (stdout (main w).1 = stdout w ++ ["Created minimal ICO file"%string]
   ↔ is_ok attempt.2 = true)
  ∧ (is_ok attempt.2 = true → (main w).2 = Ok tt)
  ∧ (∀ e, attempt.2 = Raise e →
       (main w).2 = Raise e ∧ stdout (main w).1 = stdout w
       ∧ (main w).1 = attempt.1).
Proof.
  intros attempt. rewrite main_run.
  pose proof (write_ico_data_stdout ico_bytes w) as Hout.
  fold attempt in Hout |- *.
  destruct attempt as [w' [n|e]]; simpl in *.
  - rewrite Hout. repeat split; intros; congruence.
  - split; [|split].
    + rewrite Hout. split; [|discriminate].
      intros Heq. symmetry in Heq. destruct (snoc_neq_self _ _ Heq).
    + discriminate.
    + intros e' [= <-]. auto.
Qed.

(** ** The module body and what the file holds afterwards *)




(** ** The concrete file system keeps the promises *)






Lemma icon_path_split :
  split_path "src-tauri/icons/icon.ico" = ("src-tauri/icons"%string, "icon.ico"%string).
Proof. reflexivity. Qed.

Lemma flush_fits (i : nat) (pending : bytes) (t : disk) :
  is_Some (inodes t !! i) → (length pending ≤ free_space t)%nat →
  ∃ t', flush i pending t = (t', Ok tt)
        ∧ open_files t' = open_files t
        ∧ is_Some (inodes t' !! i)
        ∧ free_space t' = (free_space t - length pending)%nat.
Proof.
  intros [node Hnode] Hroom. unfold flush. rewrite Hnode.
  destruct (Nat.leb_spec (length pending) (free_space t)) as [_|?]; [|lia].
  eexists. split; [reflexivity|]. cbn. rewrite lookup_insert_eq. eauto.
Qed.

(** Once a file is open with an empty buffer, a write and the close go
    through when the storage has room for the bytes. *)
Lemma posix_write_close_fits (f i : nat) (data : bytes) (t1 : disk) :
  open_files t1 !! f = Some (i, []) → is_Some (inodes t1 !! i) →
  (length data ≤ free_space t1)%nat →
  ∃ t2 t3, posix_write f data t1 = (t2, Ok (length data))
           ∧ posix_close f t2 = (t3, Ok tt).
Proof.
  intros Hfd Hino Hroom. unfold posix_write, posix_close. rewrite Hfd. cbn [app].
  destruct (length data <=? buffer_size t1)%nat.
  - exists (set_buffer f i data t1). cbn. rewrite lookup_insert_eq.
    destruct (flush_fits i data
                (Disk (names t1) (inodes t1) (free_space t1) (buffer_size t1)
                   (new_files_writable t1) (delete f (<[f := (i, data)]> (open_files t1))))
                Hino Hroom) as (t3 & -> & _).
    eauto.
  - destruct (flush_fits i data (set_buffer f i [] t1) Hino Hroom)
      as (t2 & -> & Hfiles & Hino2 & Hfree).
    exists t2. cbn in Hfiles. rewrite Hfiles, lookup_insert_eq.
    destruct (flush_fits i []
                (Disk (names t2) (inodes t2) (free_space t2) (buffer_size t2)
                   (new_files_writable t2)
                   (delete f (<[f := (i, [])]> (open_files t1))))
                Hino2 ltac:(cbn; lia)) as (t3 & -> & _).
    eauto.
Qed.

(** What the specification's condition lacks, on the concrete file system: with the
    icons directory searchable, the script's [with] statement completes when
    [icon.ico] is a writable file, or is absent from a writable directory,
    and the storage has room for the bytes once the old content is gone. *)
Lemma posix_write_ico_data_completes (t : disk) (out : list string)
    (w : bool) (data : bytes) :
  names t !! "src-tauri/icons"%string = Some (Folder true w) →
  (names t !! "src-tauri/icons/icon.ico"%string = None ∧ w = true
   ∧ (length data ≤ free_space t)%nat)
  ∨ (∃ i node, names t !! "src-tauri/icons/icon.ico"%string = Some (HardLink i)
               ∧ inodes t !! i = Some node ∧ may_write node = true
               ∧ (length data ≤ free_space t + length (content node))%nat) →
  is_ok (write_ico_data data (Process t out)).2 = true.
Proof.
  intros Hdir Htarget.
  assert (Hopen : ∃ t1 f i, posix_open_wb "src-tauri/icons/icon.ico" t = (t1, Ok f)
                            ∧ open_files t1 !! f = Some (i, [])
                            ∧ is_Some (inodes t1 !! i)
                            ∧ (length data ≤ free_space t1)%nat).
  { unfold posix_open_wb, new_descriptor. rewrite icon_path_split. cbn [fst negb].
    rewrite Hdir.
    destruct Htarget as [(-> & -> & Hroom) | (i & node & -> & -> & -> & Hroom)].
    - eexists _, _, _. split; [reflexivity|]. cbn. rewrite !lookup_insert_eq. eauto.
    - eexists _, _, _. split; [reflexivity|]. cbn. rewrite !lookup_insert_eq. eauto. }
  destruct Hopen as (t1 & f & i & Hopen & Hfd & Hino & Hroom).
  destruct (posix_write_close_fits f i data t1 Hfd Hino Hroom)
    as (t2 & t3 & Hwrite & Hclose).
  unfold write_ico_data, with_open_wb, open_wb, write, close, on_fs.
  cbn [fs os_open_wb os_write os_close posix_fs fst snd].
  rewrite Hopen. cbn [fst snd fs]. rewrite Hwrite. cbn [fst snd fs].
  rewrite Hclose. reflexivity.
Qed.


(** Other states inside and outside the condition "the parent directory
    exists and is writable": a directory under the icon's name, a storage
    that fills up at the flush of [close] and leaves a truncated file, a
    writable icon in a read-only directory, and a second name of the icon's
    inode. *)
Example main_on_other_trees :
  (main (Process folder_icon_tree [])).2 = Raise IsADirectoryError
  ∧ ((main (Process full_tree [])).2 = Raise OSError
     ∧ file_content (fs (main (Process full_tree [])).1) "src-tauri/icons/icon.ico"
       = Some (take 100 ico_bytes)
     ∧ stdout (main (Process full_tree [])).1 = [])
  ∧ ((main (Process locked_dir_writable_icon_tree [])).2 = Ok tt
     ∧ file_content (fs (main (Process locked_dir_writable_icon_tree [])).1)
         "src-tauri/icons/icon.ico" = Some ico_bytes)
  ∧ ((main (Process linked_tree [])).2 = Ok tt
     ∧ file_content (fs (main (Process linked_tree [])).1)
         "src-tauri/icons/backup.ico" = Some ico_bytes).
Proof. repeat split; vm_compute; reflexivity. Qed.

(** ** The theorems at concrete states *)


Lemma message_iff_write_succeeds_witness :
  (is_ok (write_ico_data ico_bytes (Process stale_tree [])).2 = true
   ∧ (main (Process stale_tree [])).2 = Ok tt
   ∧ stdout (main (Process stale_tree [])).1 = ["Created minimal ICO file"%string])
  ∧ ((write_ico_data ico_bytes (Process locked_tree [])).2 = Raise PermissionError
     ∧ (main (Process locked_tree [])).2 = Raise PermissionError
     ∧ stdout (main (Process locked_tree [])).1 = []).
Proof.
  pose proof (message_iff_write_succeeds (Process stale_tree [])) as (Hiff & Hok & _).
  pose proof (message_iff_write_succeeds (Process locked_tree [])) as (_ & _ & Herr).
  assert (Hwritten : is_ok (write_ico_data ico_bytes (Process stale_tree [])).2 = true)
    by (vm_compute; reflexivity).
  assert (Hdenied : (write_ico_data ico_bytes (Process locked_tree [])).2
                    = Raise PermissionError)
    by (vm_compute; reflexivity).
  split.
  - split; [exact Hwritten|]. split; [exact (Hok Hwritten)|].
    exact (proj2 Hiff Hwritten).
  - split; [exact Hdenied|].
    destruct (Herr PermissionError Hdenied) as (Hres & Hout & _).
    split; [exact Hres | exact Hout].
Defined.

(** ** The module body: which calls it makes, in which order *)

Lemma main_scripted_run (ro : result unit) (rw : result nat) (rc : result unit)
    (log : list os_call) (out : list string) :
  main (H := scripted_fs ro rw rc) (Process log out)
  = match ro with
    | Raise e => (Process (log ++ [CallOpenWb "src-tauri/icons/icon.ico"]) out, Raise e)
    | Ok _ =>
        let log' := log ++ [CallOpenWb "src-tauri/icons/icon.ico";
                            CallWrite ico_bytes; CallClose] in
        match rw, rc with
        | _, Raise e => (Process log' out, Raise e)
        | Raise e, Ok _ => (Process log' out, Raise e)
        | Ok _, Ok _ => (Process log' (out ++ ["Created minimal ICO file"%string]), Ok tt)
        end
    end.
Proof.
  rewrite main_run. generalize ico_bytes. intros data.
  unfold write_ico_data, with_open_wb, open_wb, write, close, on_fs, print. simpl.
  destruct ro as [[]|e]; simpl; [|reflexivity].
  destruct rw as [n|e]; destruct rc as [[]|e']; simpl;
    rewrite <- !app_assoc; reflexivity.
Qed.

(** X1: whatever [open], [write] and [close] answer, the script opens
    [src-tauri/icons/icon.ico] once and first; when that fails it makes no
    other call; when it succeeds it writes the whole image in one call and
    then closes the file, also when the write raised.  It ends normally only
    if all three calls succeeded; otherwise with the exception of [open], or
    of [close], or else of [write]. *)
Theorem main_call_protocol (ro : result unit) (rw : result nat) (rc : result unit)
    (log : list os_call) (out : list string) :
  let run := main (H := scripted_fs ro rw rc) (Process log out) in
  (∀ e, ro = Raise e →
     fs run.1 = log ++ [CallOpenWb "src-tauri/icons/icon.ico"] ∧ run.2 = Raise e)
  ∧ (is_ok ro = true →
     fs run.1 = log ++ [CallOpenWb "src-tauri/icons/icon.ico";
                        CallWrite ico_bytes; CallClose]
     ∧ (∀ e, rc = Raise e → run.2 = Raise e)
     ∧ (∀ e, rw = Raise e → is_ok rc = true → run.2 = Raise e)
     ∧ (is_ok rw = true → is_ok rc = true → run.2 = Ok tt))
  ∧ (run.2 = Ok tt ↔ is_ok ro = true ∧ is_ok rw = true ∧ is_ok rc = true).
Proof.
  intros run. subst run. rewrite main_scripted_run.
  destruct ro as [[]|eo]; destruct rw as [n|ew]; destruct rc as [[]|ec]; simpl;
    (split; [|split]);
    try (intros; discriminate);
    try (intros e [= <-]; auto);
    try (intros _; repeat split; intros; try discriminate; congruence);
    try (split; [discriminate | intros (? & ? & ?); discriminate]);
    try (split; [auto | reflexivity]).
Qed.

Lemma main_call_protocol_witness :
  (fs (main (H := scripted_fs (Raise PermissionError) (Ok 0%nat) (Ok tt))
         (Process [] [])).1
   = [CallOpenWb "src-tauri/icons/icon.ico"])
  ∧ (main (H := scripted_fs (Ok tt) (Raise OSError) (Ok tt)) (Process [] [])).2
    = Raise OSError
  ∧ fs (main (H := scripted_fs (Ok tt) (Raise OSError) (Ok tt)) (Process [] [])).1
    = [CallOpenWb "src-tauri/icons/icon.ico"; CallWrite ico_bytes; CallClose].
Proof.
  split; [|split].
  - exact (proj1 (proj1 (main_call_protocol (Raise PermissionError) (Ok 0%nat)
                           (Ok tt) [] []) PermissionError eq_refl)).
  - destruct (proj1 (proj2 (main_call_protocol (Ok tt) (Raise OSError) (Ok tt) [] []))
                eq_refl) as (_ & _ & Hw & _).
    exact (Hw OSError eq_refl eq_refl).
  - exact (proj1 (proj1 (proj2 (main_call_protocol (Ok tt) (Raise OSError) (Ok tt)
                                  [] [])) eq_refl)).
Defined.

(** ** The construction for other dimensions *)

Lemma create_minimal_ico_body_sized {M : Type → Type} `{MRet M, MBind M, StructPack M} :
  create_minimal_ico_body = create_ico_of_size 16 16.
Proof. reflexivity. Qed.

Lemma pack_parsed (fmt : string) (cs : list code) (vs : list Z) :
  parse_format fmt = Ok cs → pack fmt vs = pack_fields cs vs.
Proof. unfold pack. intros ->. reflexivity. Qed.

(** The directory entry is packed when, and only when, both dimensions fit
    a byte. *)
Lemma pack_dir_entry_ok (width height : Z) :
  0 ≤ width < 256 → 0 ≤ height < 256 →
  ∃ d, pack "<BBBBHHLL" [width; height; 0; 0; 1; 32; 40 + width * height * 4; 22]
       = Ok d.
Proof.
  intros Hw Hh.
  assert (Hok : is_ok (pack "<BBBBHHLL"
                  [width; height; 0; 0; 1; 32; 40 + width * height * 4; 22]) = true).
  { rewrite (pack_parsed "<BBBBHHLL" [CodeB; CodeB; CodeB; CodeB; CodeH; CodeH; CodeL; CodeL] _ eq_refl).
    apply pack_fields_ok_iff.
    repeat constructor; apply in_range_spec; cbn; nia. }
  destruct (pack "<BBBBHHLL" _) as [d|]; [eauto | discriminate].
Qed.

Lemma pack_dir_entry_raise (width height : Z) :
  ¬ (0 ≤ width < 256 ∧ 0 ≤ height < 256) →
  pack "<BBBBHHLL" [width; height; 0; 0; 1; 32; 40 + width * height * 4; 22]
  = Raise StructError.
Proof.
  intros Hout.
  rewrite (pack_parsed "<BBBBHHLL" [CodeB; CodeB; CodeB; CodeB; CodeH; CodeH; CodeL; CodeL] _ eq_refl).
  cbn [pack_fields].
  destruct (in_range CodeB width) eqn:Hw; [|reflexivity].
  destruct (in_range CodeB height) eqn:Hh; [|reflexivity].
  apply in_range_spec in Hw, Hh. cbn in Hw, Hh. lia.
Qed.

Lemma pack_dib_header_ok (width height : Z) :
  0 ≤ width < 256 → 0 ≤ height < 256 →
  ∃ b, pack "<LLLHHLLLLLL"
         [40; width; height * 2; 1; 32; 0; width * height * 4; 0; 0; 0; 0]
       = Ok b.
Proof.
  intros Hw Hh.
  assert (Hok : is_ok (pack "<LLLHHLLLLLL"
                  [40; width; height * 2; 1; 32; 0; width * height * 4; 0; 0; 0; 0])
                = true).
  { rewrite (pack_parsed "<LLLHHLLLLLL"
               [CodeL; CodeL; CodeL; CodeH; CodeH; CodeL; CodeL; CodeL; CodeL; CodeL; CodeL] _ eq_refl).
    apply pack_fields_ok_iff.
    repeat constructor; apply in_range_spec; cbn; nia. }
  destruct (pack "<LLLHHLLLLLL" _) as [b|]; [eauto | discriminate].
Qed.

Lemma create_ico_of_size_parts (width height : Z) :
  0 ≤ width < 256 → 0 ≤ height < 256 →
  ∃ h d b : bytes,
    pack "<HHH" [0; 1; 1] = Ok h
    ∧ pack "<BBBBHHLL" [width; height; 0; 0; 1; 32; 40 + width * height * 4; 22]
      = Ok d
    ∧ pack "<LLLHHLLLLLL"
        [40; width; height * 2; 1; 32; 0; width * height * 4; 0; 0; 0; 0] = Ok b
    ∧ length h = 6%nat ∧ length d = 16%nat ∧ length b = 40%nat
    ∧ create_ico_of_size (M := result) width height
      = Ok (h ++ d ++ b ++ pixel_block_spec (Z.to_nat height * Z.to_nat width)).
Proof.
  intros Hw Hh.
  destruct (pack "<HHH" [0; 1; 1]) as [h|] eqn:Hhd; [|discriminate].
  destruct (pack_dir_entry_ok width height Hw Hh) as [d Hd].
  destruct (pack_dib_header_ok width height Hw Hh) as [b Hb].
  exists h, d, b. repeat split; try assumption.
  - exact (pack_length "<HHH" [CodeH; CodeH; CodeH] _ _ eq_refl Hhd).
  - exact (pack_length "<BBBBHHLL"
             [CodeB; CodeB; CodeB; CodeB; CodeH; CodeH; CodeL; CodeL] _ _ eq_refl Hd).
  - exact (pack_length "<LLLHHLLLLLL"
             [CodeL; CodeL; CodeL; CodeH; CodeH; CodeL; CodeL; CodeL;
              CodeL; CodeL; CodeL] _ _ eq_refl Hb).
  - unfold create_ico_of_size. cbv zeta. unfold struct_pack, result_pack.
    rewrite Hhd, result_bind_ok, Hd, result_bind_ok, Hb, result_bind_ok.
    rewrite pixel_loop_any_size. reflexivity.
Qed.

(** X5: with other values for [width] and [height], the construction
    returns exactly when both lie in 0..255, the range of the one-byte
    fields of the directory entry; otherwise [struct.pack] raises
    [struct.error] and nothing is returned. *)
Theorem create_ico_of_size_returns_iff (width height : Z) :
  (is_ok (create_ico_of_size (M := result) width height) = true
   ↔ 0 ≤ width < 256 ∧ 0 ≤ height < 256)
  ∧ (create_ico_of_size (M := result) width height = Raise StructError
     ↔ ¬ (0 ≤ width < 256 ∧ 0 ≤ height < 256)).
Proof.
  assert (Hin : 0 ≤ width < 256 ∧ 0 ≤ height < 256 →
                is_ok (create_ico_of_size (M := result) width height) = true).
  { intros [Hw Hh].
    destruct (create_ico_of_size_parts width height Hw Hh)
      as (h & d & b & _ & _ & _ & _ & _ & _ & ->). reflexivity. }
  assert (Hout : ¬ (0 ≤ width < 256 ∧ 0 ≤ height < 256) →
                 create_ico_of_size (M := result) width height = Raise StructError).
  { intros Hn. unfold create_ico_of_size. cbv zeta. unfold struct_pack, result_pack.
    destruct (pack "<HHH" [0; 1; 1]) as [h|] eqn:Hhd; [|discriminate].
    rewrite result_bind_ok, (pack_dir_entry_raise width height Hn). reflexivity. }
  split; split.
  - intros Hok. destruct (decide (0 ≤ width < 256 ∧ 0 ≤ height < 256)) as [?|Hn];
      [assumption|]. rewrite (Hout Hn) in Hok. discriminate.
  - exact Hin.
  - intros Hraise Hrange. apply Hin in Hrange. rewrite Hraise in Hrange. discriminate.
  - exact Hout.
Qed.

Lemma create_ico_of_size_returns_iff_witness :
  is_ok (create_ico_of_size (M := result) 255 255) = true
  ∧ create_ico_of_size (M := result) 256 16 = Raise StructError
  ∧ create_ico_of_size (M := result) 16 (-1) = Raise StructError.
Proof.
  split; [|split].
  - apply (proj1 (create_ico_of_size_returns_iff 255 255)). lia.
  - apply (proj2 (create_ico_of_size_returns_iff 256 16)). lia.
  - apply (proj2 (create_ico_of_size_returns_iff 16 (-1))). lia.
Defined.

(** X6: for any [width] and [height] in 0..255 the image built describes
    itself: it is 62 + 4 * width * height bytes long; its directory entry
    reads back as (width, height, 0, 0, 1, 32, 40 + 4 * width * height, 22),
    the size field being the number of bytes from offset 22 to the end; its
    bitmap header reads back with the same width, twice the height, and an
    image size equal to the number of pixel bytes after offset 62; and the
    pixel bytes are the blue sample once per pixel. *)
Theorem create_ico_of_size_layout (width height : Z) :
  0 ≤ width < 256 → 0 ≤ height < 256 →
  ∃ ico_data : bytes,
    create_ico_of_size (M := result) width height = Ok ico_data
    ∧ Z.of_nat (length ico_data) = 62 + 4 * width * height
    ∧ unpack "<HHH" (slice 0 6 ico_data) = Ok [0; 1; 1]
    ∧ unpack "<BBBBHHLL" (slice 6 22 ico_data)
      = Ok [width; height; 0; 0; 1; 32; 40 + width * height * 4; 22]
    ∧ Z.of_nat (length (drop 22 ico_data)) = 40 + width * height * 4
    ∧ unpack "<LLLHHLLLLLL" (slice 22 62 ico_data)
      = Ok [40; width; height * 2; 1; 32; 0; width * height * 4; 0; 0; 0; 0]
    ∧ Z.of_nat (length (drop 62 ico_data)) = width * height * 4
    ∧ drop 62 ico_data = pixel_block_spec (Z.to_nat height * Z.to_nat width).
Proof.
  intros Hw Hh.
  destruct (create_ico_of_size_parts width height Hw Hh)
    as (h & d & b & Hhd & Hd & Hb & Lh & Ld & Lb & Hico).
  set (px := pixel_block_spec (Z.to_nat height * Z.to_nat width)) in *.
  assert (Lpx : Z.of_nat (length px) = width * height * 4).
  { unfold px. rewrite pixel_block_spec_length. nia. }
  exists (h ++ d ++ b ++ px). split; [exact Hico|].
  assert (H0 : slice 0 6 (h ++ d ++ b ++ px) = h).
  { unfold slice. rewrite drop_0. apply take_app_length'. lia. }
  assert (Hdir : slice 6 22 (h ++ d ++ b ++ px) = d)
    by (apply slice_app_middle; lia).
  assert (Hdib : slice 22 62 (h ++ d ++ b ++ px) = b).
  { rewrite (app_assoc h d). apply slice_app_middle; rewrite ?length_app; lia. }
  assert (D22 : drop 22 (h ++ d ++ b ++ px) = b ++ px).
  { rewrite (app_assoc h d). apply drop_app_length'. rewrite length_app. lia. }
  assert (D62 : drop 62 (h ++ d ++ b ++ px) = px).
  { rewrite !app_assoc. apply drop_app_length'. rewrite !length_app. lia. }
  rewrite H0, Hdir, Hdib, D22, D62, !length_app.
  rewrite (unpack_pack _ _ _ Hhd), (unpack_pack _ _ _ Hd), (unpack_pack _ _ _ Hb).
  repeat split; lia.
Qed.

Lemma create_ico_of_size_layout_witness :
  ∃ ico_data : bytes,
    create_ico_of_size (M := result) 3 2 = Ok ico_data
    ∧ Z.of_nat (length ico_data) = 62 + 4 * 3 * 2
    ∧ unpack "<BBBBHHLL" (slice 6 22 ico_data) = Ok [3; 2; 0; 0; 1; 32; 64; 22].
Proof.
  destruct (create_ico_of_size_layout 3 2 ltac:(lia) ltac:(lia))
    as (ico_data & Hico & Hlen & _ & Hdir & _).
  exists ico_data. repeat split; assumption.
Defined.
